(** * action_graph: the goal-regression planner of [planner.py]

    A shallow embedding of [action_graph/planner.py] (class [Planner]) and
    the properties of its backward-chaining search, its reference resolver,
    its path deduplication and its plan assembler. *)

From stdpp Require Import base decidable option list strings countable gmap.
From Stdlib Require Import ZArith Lia Ascii.

Local Open Scope string_scope.
Local Open Scope list_scope.
Local Open Scope Z_scope.

(** ** Data model *)

(** State values.  Python compares values with [==]; under it [True] and
    [False] are the integers 1 and 0, so a value stands for its class under
    [==].  [VEllipsis] is Python's [Ellipsis], which the planner uses as the
    wildcard marker of the action index. *)
Inductive value : Type :=
  | VInt (z : Z)
  | VStr (s : string)
  | VEllipsis
  | VNone.

Definition VBool (b : bool) : value := VInt (Z.b2z b).

#[global] Instance value_eq_dec : EqDecision value.
Proof. solve_decision. Defined.

#[global] Instance value_countable : Countable value.
Proof.
  refine (inj_countable'
    (λ v, match v with
          | VInt z => inl z
          | VStr s => inr (inl s)
          | VEllipsis => inr (inr true)
          | VNone => inr (inr false)
          end)
    (λ e, match e with
          | inl z => VInt z
          | inr (inl s) => VStr s
          | inr (inr true) => VEllipsis
          | inr (inr false) => VNone
          end) _).
  by intros [].
Defined.

(** Modelled from the spec: [State] is declared in [action_graph/action.py],
    which is not among the sources.  The spec has it as an ordered mapping
    from variable names to values, compared by key/value pairs; it is an
    association list in iteration order. *)
Definition State : Type := list (string * value).

(** Costs are Python integers, which are exact, or the float [inf] of the
    sentinel; other floats, whose sums round, are not modelled. *)
Inductive Cost : Type :=
  | Fin (z : Z)
  | Inf.

#[global] Instance Cost_eq_dec : EqDecision Cost.
Proof. solve_decision. Defined.

(** Modelled from the spec: [Action] is declared in [action_graph/action.py],
    which is not among the sources.  The spec gives an action three
    observable attributes and value equality; [name] stands for the class of
    the action. *)
Record Action : Type := mkAction {
  name : string;
  preconditions : State;
  effects : State;
  cost : Cost
}.

#[global] Instance Action_eq_dec : EqDecision Action.
Proof. solve_decision. Defined.

(** Modelled from the spec: [ActionImpossible] is declared in
    [action_graph/action.py], which is not among the sources.  The spec has
    it as the sentinel with empty preconditions and effects and cost +inf. *)
Definition ActionImpossible : Action := mkAction "ActionImpossible" [] [] Inf.

(** [Path = List[Tuple[Action, State, float]]] and
    [Plan = OrderedDict[Action, State]]. *)
Definition Step : Type := Action * State * Cost.
Definition Path : Type := list Step.
Definition Plan : Type := list (Action * State).

Definition step_action (x : Step) : Action := x.1.1.
Definition step_outcome (x : Step) : State := x.1.2.

(** The action index: a [defaultdict(list)] keyed by (variable, value). *)
Record Planner : Type := mkPlanner {
  action_lookup : gmap (string * value) (list Action)
}.

(** ** Results of the search *)

(** The exceptions the planner raises: the [IndexError] of
    [list(target_state.items())[0]], the
    [Exception('No action available to satisfy goal: ...')] of
    [__find_actions], which names the target state it was called with, and
    the [OverflowError] of a sum that has to turn too large an integer into
    a float. *)
Inductive exn : Type :=
  | IndexError
  | NoActionAvailable (target_state : State)
  | OverflowError.

(** A call returns, raises, or exhausts the recursion budget [fuel] that
    stands for the depth of the call stack (on a cyclic catalog the source
    recurses without end). *)
Inductive outcome (A : Type) : Type :=
  | Return (x : A)
  | Raised (e : exn)
  | OutOfFuel.
Arguments Return {A} x.
Arguments Raised {A} e.
Arguments OutOfFuel {A}.

Definition bind {A B : Type} (m : outcome A) (k : A → outcome B) : outcome B :=
  match m with
  | Return x => k x
  | Raised e => Raised e
  | OutOfFuel => OutOfFuel
  end.

Notation "'let*' x := m 'in' k" := (bind m (λ x, k))
  (at level 10, x name, m at level 100, k at level 200,
   format "'[v' 'let*'  x  :=  m  'in' '/' k ']'").

(** ** Costs *)

(** [sys.float_info.max], an integer: (2^53 - 1) * 2^971. *)
Definition float_info_max : Z := 2 ^ 1024 - 2 ^ 971.

(** Whether turning the integer [z] into a float raises [OverflowError]:
    the conversion rounds to nearest, ties to even, and fails when the
    result would reach 2^1024. *)
Definition int_too_large (z : Z) : bool :=
  bool_decide (2 ^ 1024 - 2 ^ 970 ≤ Z.abs z).

(** [a + b]: integers add exactly; an integer added to the float [inf] is
    first turned into a float. *)
Definition cost_add (a b : Cost) : outcome Cost :=
  match a, b with
  | Fin x, Fin y => Return (Fin (x + y))
  | Fin z, Inf | Inf, Fin z =>
      if int_too_large z then Raised OverflowError else Return Inf
  | Inf, Inf => Return Inf
  end.

(** [a < b]; Python compares an integer with a float exactly. *)
Definition cost_ltb (a b : Cost) : bool :=
  match a, b with
  | Fin x, Fin y => bool_decide (x < y)
  | Fin _, Inf => true
  | Inf, _ => false
  end.

(** [c > sys.float_info.max] *)
Definition exceeds_float_max (c : Cost) : bool :=
  match c with
  | Fin z => bool_decide (float_info_max < z)
  | Inf => true
  end.

(** [sum(a.cost for a, _, cost in path)]: the actions' own costs added one
    by one, from the integer 0. *)
Definition path_cost (path : Path) : outcome Cost :=
  foldl (λ acc x, let* c := acc in cost_add c (cost (step_action x)))
        (Return (Fin 0)) path.

(** ** [__check_references] *)

(** [ref[1:]] *)
Definition drop_first (s : string) : string :=
  match s with
  | EmptyString => EmptyString
  | String _ rest => rest
  end.

(** [state[k]], with [k in state] as [is_Some]. *)
Fixpoint state_get (k : string) (state : State) : option value :=
  match state with
  | [] => None
  | (k', v) :: rest => if decide (k' = k) then Some v else state_get k rest
  end.

(** The [try] of the source guards the membership test and the indexing;
    neither raises on a mapping, so the function is total. *)
Definition check_references (ref : value) (state : State) : value :=
  match ref with
  | VStr s =>
      match state_get (drop_first s) state with
      | Some v => v
      | None => ref
      end
  | _ => ref
  end.

(** ** [__create_action_lookup] *)

Definition create_action_lookup (actions : list Action)
  : gmap (string * value) (list Action) :=
  foldl (λ lookup_actions action,
           foldl (λ lookup_actions kv,
                    <[kv := (lookup_actions !!! kv) ++ [action]]> lookup_actions)
                 lookup_actions (effects action))
        ∅ actions.

(** [Planner(actions)] and [update_actions]: the index is rebuilt whole. *)
Definition new_planner (actions : list Action) : Planner :=
  mkPlanner (create_action_lookup actions).

Definition update_actions (self : Planner) (actions : list Action) : Planner :=
  mkPlanner (create_action_lookup actions).

(** ** [__unique] *)

(** The comprehension threads the set [unique] of the triples seen so far. *)
Fixpoint unique_from (seen : list Step) (path : Path) : Path :=
  match path with
  | [] => []
  | x :: rest =>
      if decide (x ∈ seen) then unique_from seen rest
      else x :: unique_from (x :: seen) rest
  end.

Definition unique (path : Path) : Path := unique_from [] path.

(** ** [__path_to_plan] *)

(** [plan[action] = effects] on an ordered dictionary: an existing key keeps
    its place and takes the new value, a new key goes to the end. *)
Fixpoint plan_set (plan : Plan) (action : Action) (effects : State) : Plan :=
  match plan with
  | [] => [(action, effects)]
  | (a, e) :: rest =>
      if decide (a = action) then (a, effects) :: rest
      else (a, e) :: plan_set rest action effects
  end.

Definition path_to_plan (path : Path) : Plan :=
  foldl (λ plan x, plan_set plan (step_action x) (step_outcome x)) [] path.

(** ** [__find_actions] *)

Section Search.
Variable self : Planner.

(** The loop over [action.preconditions.items()]: [solve] is the recursive
    call on a single-predicate goal. *)
Fixpoint solve_preconditions (solve : State → outcome Path)
    (expected_outcome : State) (pre : State) (action_path : Path)
  : outcome Path :=
  match pre with
  | [] => Return action_path
  | (pk, pv) :: rest =>
      let pv := check_references pv expected_outcome in
      let* _path := solve [(pk, pv)] in
      solve_preconditions solve expected_outcome rest (action_path ++ _path)
  end.

(** The path of one candidate: its preconditions' paths, then itself. *)
Definition candidate_path (solve : State → outcome Path)
    (expected_outcome : State) (action : Action) : outcome Path :=
  let* action_path := solve_preconditions solve expected_outcome
                   (preconditions action) [] in
  Return (action_path ++ [(action, expected_outcome, cost action)]).

(** "choose the shortest feasible path": both sums are taken anew, the one
    of the running best first. *)
Definition choose (chosen_path action_path : Path) : outcome Path :=
  match chosen_path with
  | [] => Return action_path
  | _ =>
      let* chosen_path_cost := path_cost chosen_path in
      let* action_path_cost := path_cost action_path in
      Return (if cost_ltb action_path_cost chosen_path_cost
              then action_path else chosen_path)
  end.

(** The loop over [probable_actions]. *)
Fixpoint explore (solve : State → outcome Path) (expected_outcome : State)
    (probable_actions : list Action) (chosen_path : Path) : outcome Path :=
  match probable_actions with
  | [] => Return chosen_path
  | action :: rest =>
      let* action_path := candidate_path solve expected_outcome action in
      let* chosen_path := choose chosen_path action_path in
      explore solve expected_outcome rest chosen_path
  end.

(** The candidates of a goal: the exact bucket, else the wildcard one.
    Reading a missing key of the [defaultdict] stores an empty list under
    it, which no later read tells from a missing key. *)
Definition probable_actions_for (gk : string) (gv : value) : list Action :=
  match action_lookup self !!! (gk, gv) with
  | [] => action_lookup self !!! (gk, VEllipsis)
  | probable_actions => probable_actions
  end.

Fixpoint find_actions (fuel : nat) (target_state start_state : State)
  : outcome Path :=
  match fuel with
  | O => OutOfFuel
  | S fuel =>
      match target_state with
      | [] => Raised IndexError
      | (gk, gv) :: _ =>
          let gv := check_references gv start_state in
          if decide ((gk, gv) ∈ start_state) then Return []
          else
            match probable_actions_for gk gv with
            | [] => Return [(ActionImpossible, [], Inf)]
            | probable_actions =>
                let expected_outcome := [(gk, gv)] in
                let* chosen_path := explore (λ t, find_actions fuel t start_state)
                                 expected_outcome probable_actions [] in
                let* chosen_path_cost := path_cost chosen_path in
                if exceeds_float_max chosen_path_cost
                then Raised (NoActionAvailable target_state)
                else Return (unique chosen_path)
            end
      end
  end.

(** [find_plan] *)
Definition find_plan (fuel : nat) (start_state target_state : State)
  : outcome Plan :=
  let* path := find_actions fuel target_state start_state in
  Return (path_to_plan path).

End Search.

(** ** Definitions the properties are stated with *)

(** The spec's reading of the resolver, to be compared with
    [check_references]: a value is an indirect reference when it is a string
    whose first character is the sigil and whose remainder is a key of the
    context state. *)
Definition check_references_sigil (sigil : Ascii.ascii) (ref : value)
    (state : State) : value :=
  match ref with
  | VStr (String c rest) =>
      if decide (c = sigil) then
        match state_get rest state with
        | Some v => v
        | None => ref
        end
      else ref
  | _ => ref
  end.

(** The spec's reading of the deduplication, to be compared with [unique]
    and with the keys of [path_to_plan]: the first occurrence of each
    distinct element, in the order of the list. *)
Fixpoint first_occurrences {A : Type} `{EqDecision A} (l : list A) : list A :=
  match l with
  | [] => []
  | x :: rest => x :: filter (λ y, y ≠ x) (first_occurrences rest)
  end.




(** The path that solves the preconditions of [action] when it is chosen
    for [expected_outcome]. *)
Definition preconditions_path (self : Planner) (fuel : nat)
    (start_state : State) (action : Action) (expected_outcome : State)
  : outcome Path :=
  solve_preconditions (λ t, find_actions self fuel t start_state)
    expected_outcome (preconditions action) [].

(** Topological validity of a path: each triple comes after the triples
    that solve the preconditions of its action for its outcome. *)
Definition path_topologically_valid (self : Planner) (start_state : State)
    (path : Path) : Prop :=
  ∀ l1 x l2, path = l1 ++ x :: l2 →
    ∃ fuel sub,
      preconditions_path self fuel start_state (step_action x) (step_outcome x)
      = Return sub
      ∧ ∀ y, y ∈ sub → y ∈ l1.

(** Topological validity of a plan: each action comes after the actions
    that solve its preconditions for the outcome the plan gives it. *)
Definition plan_topologically_valid (self : Planner) (start_state : State)
    (plan : Plan) : Prop :=
  ∀ l1 a o l2, plan = l1 ++ (a, o) :: l2 →
    ∃ fuel sub,
      preconditions_path self fuel start_state a o = Return sub
      ∧ ∀ y, y ∈ sub → step_action y ∈ l1.*1.

(** ** Catalogs: the scenarios of the specification and three more *)

Module Scenarios.
Definition A1 := mkAction "A1" [] [("has_axe", VBool true)] (Fin 1).
Definition A2 := mkAction "A2" [("has_axe", VBool true)]
                               [("wood_chopped", VBool true)] (Fin 2).
Definition B1 := mkAction "B1" [] [("key", VStr "open")] (Fin 5).
Definition B2 := mkAction "B2" [("has_key", VBool true)]
                               [("key", VStr "open")] (Fin 1).
Definition B3 := mkAction "B3" [] [("has_key", VBool true)] (Fin 1).
Definition C1 := mkAction "C1" [] [("color", VStr "red")] (Fin 1).
End Scenarios.

(** A workshop: the door opens with a lever ([Pull], which needs power) or
    by hand ([Push]); power comes from a generator that needs fuel, and
    nothing supplies fuel. *)
Module Workshop.
Definition Pull := mkAction "Pull" [("power", VBool true)]
                                   [("door_open", VBool true)] (Fin 1).
Definition Push := mkAction "Push" [] [("door_open", VBool true)] (Fin 5).
Definition Generate := mkAction "Generate" [("fuel", VBool true)]
                                           [("power", VBool true)] (Fin 1).
Definition catalog : list Action := [Pull; Push; Generate].
Definition goal : State := [("door_open", VBool true)].
End Workshop.

(** A dial: the service action [SetLevel] brings [level] to any value and
    needs [ready] at that value; [Arm1] makes [ready] 1 from nothing,
    [Arm2] makes [ready] 2 and needs [level] at 1. *)
Module Dial.
Definition Arm1 := mkAction "Arm1" [] [("ready", VInt 1)] (Fin 1).
Definition Arm2 := mkAction "Arm2" [("level", VInt 1)]
                                   [("ready", VInt 2)] (Fin 1).
Definition SetLevel := mkAction "SetLevel" [("ready", VStr "@level")]
                                           [("level", VEllipsis)] (Fin 1).
Definition catalog : list Action := [Arm1; Arm2; SetLevel].
Definition goal : State := [("level", VInt 2)].
Definition plan : Plan :=
  [(Arm1, [("ready", VInt 1)]);
   (SetLevel, [("level", VInt 2)]);
   (Arm2, [("ready", VInt 2)])].
End Dial.

(** A bakery: the pie needs dough and roux, and each of them needs flour. *)
Module Bakery.
Definition BuyFlour := mkAction "BuyFlour" [] [("flour", VBool true)] (Fin 1).
Definition MakeDough := mkAction "MakeDough" [("flour", VBool true)]
                                             [("dough", VBool true)] (Fin 2).
Definition MakeRoux := mkAction "MakeRoux" [("flour", VBool true)]
                                           [("roux", VBool true)] (Fin 2).
Definition BakePie :=
  mkAction "BakePie" [("dough", VBool true); ("roux", VBool true)]
                     [("pie", VBool true)] (Fin 3).
Definition catalog : list Action := [BuyFlour; MakeDough; MakeRoux; BakePie].
Definition goal : State := [("pie", VBool true)].
Definition chosen_path : Path :=
  [(BuyFlour, [("flour", VBool true)], Fin 1);
   (MakeDough, [("dough", VBool true)], Fin 2);
   (BuyFlour, [("flour", VBool true)], Fin 1);
   (MakeRoux, [("roux", VBool true)], Fin 2);
   (BakePie, [("pie", VBool true)], Fin 3)].
Definition path : Path :=
  [(BuyFlour, [("flour", VBool true)], Fin 1);
   (MakeDough, [("dough", VBool true)], Fin 2);
   (MakeRoux, [("roux", VBool true)], Fin 2);
   (BakePie, [("pie", VBool true)], Fin 3)].
End Bakery.

(** A river: rowing across costs 1; towing costs 10^400 and needs a rope
    that nothing supplies. *)
Module River.
Definition Row := mkAction "Row" [] [("across", VBool true)] (Fin 1).
Definition Tow := mkAction "Tow" [("rope", VBool true)]
                                 [("across", VBool true)] (Fin (10 ^ 400)).
Definition catalog : list Action := [Row; Tow].
Definition goal : State := [("across", VBool true)].
End River.

(** The workshop with a third way to open the door, [Kick], listed between
    [Push] and [Pull]. *)
Module Workshop3.
Definition Kick := mkAction "Kick" [] [("door_open", VBool true)] (Fin 7).
Definition catalog : list Action :=
  [Workshop.Push; Kick; Workshop.Pull; Workshop.Generate].
End Workshop3.

(** * Properties *)

(** ** The scenarios *)

Example scenario1 :
  find_plan (new_planner [Scenarios.A1; Scenarios.A2]) 5 []
            [("wood_chopped", VBool true)]
  = Return [(Scenarios.A1, [("has_axe", VBool true)]);
            (Scenarios.A2, [("wood_chopped", VBool true)])].
Proof. vm_compute. reflexivity. Qed.

Example scenario2 :
  find_plan (new_planner [Scenarios.B1; Scenarios.B2; Scenarios.B3]) 5 []
            [("key", VStr "open")]
  = Return [(Scenarios.B3, [("has_key", VBool true)]);
            (Scenarios.B2, [("key", VStr "open")])].
Proof. vm_compute. reflexivity. Qed.

Example scenario4 :
  find_plan (new_planner [Scenarios.C1]) 5 [("base_color", VStr "red")]
            [("color", VStr "@base_color")]
  = Return [(Scenarios.C1, [("color", VStr "red")])].
Proof. vm_compute. reflexivity. Qed.

Example scenario5 :
  find_plan (new_planner [Scenarios.B1; Scenarios.B2]) 5
            [("has_key", VBool true)] [("key", VStr "open")]
  = Return [(Scenarios.B2, [("key", VStr "open")])].
Proof. vm_compute. reflexivity. Qed.

(** ** The reference resolver *)

Lemma state_get_Some k state v :
  state_get k state = Some v → (k, v) ∈ state.
Proof.
  induction state as [|[k' v'] rest IH]; simpl; [done|].
  case_decide as Hk.
  - intros [= ->]. subst k'. apply list_elem_of_here.
  - intros H. apply list_elem_of_further. by apply IH.
Qed.

Lemma state_get_None k state :
  state_get k state = None ↔ k ∉ state.*1.
Proof.
  induction state as [|[k' v'] rest IH]; simpl.
  - split; [intros _; apply not_elem_of_nil | done].
  - case_decide as Hk.
    + subst k'. split; [done|]. intros H. exfalso. apply H, list_elem_of_here.
    + rewrite IH, not_elem_of_cons. simpl. intuition congruence.
Qed.

Lemma check_references_not_str ref state :
  (∀ s, ref ≠ VStr s) → check_references ref state = ref.
Proof. destruct ref; simpl; try done. intros H. by destruct (H s). Qed.

(** With the sigil at its head a string is resolved the same way by both
    readings; the source never looks at the first character. *)
Lemma check_references_sigil_agree sigil rest state :
  check_references (VStr (String sigil rest)) state
  = check_references_sigil sigil (VStr (String sigil rest)) state.
Proof. simpl. by rewrite decide_True. Qed.

(** ** First searches: goals met by the start state, empty goals *)

Section SearchFacts.
Variable self : Planner.

Lemma find_actions_S fuel target_state start_state :
  find_actions self (S fuel) target_state start_state
  = match target_state with
    | [] => Raised IndexError
    | (gk, gv) :: _ =>
        if decide ((gk, check_references gv start_state) ∈ start_state)
        then Return []
        else
          match probable_actions_for self gk
                  (check_references gv start_state) with
          | [] => Return [(ActionImpossible, [], Inf)]
          | probable_actions =>
              let* chosen_path :=
                explore (λ t, find_actions self fuel t start_state)
                  [(gk, check_references gv start_state)]
                  probable_actions [] in
              let* chosen_path_cost := path_cost chosen_path in
              if exceeds_float_max chosen_path_cost
              then Raised (NoActionAvailable target_state)
              else Return (unique chosen_path)
          end
    end.
Proof. reflexivity. Qed.

Lemma find_actions_satisfied fuel start_state gk gv rest :
  (gk, check_references gv start_state) ∈ start_state →
  find_actions self (S fuel) ((gk, gv) :: rest) start_state = Return [].
Proof. intros H. rewrite find_actions_S. by rewrite decide_True. Qed.

Lemma find_actions_no_candidate fuel start_state gk gv rest :
  (gk, check_references gv start_state) ∉ start_state →
  probable_actions_for self gk (check_references gv start_state) = [] →
  find_actions self (S fuel) ((gk, gv) :: rest) start_state
  = Return [(ActionImpossible, [], Inf)].
Proof.
  intros H Hp. rewrite find_actions_S. rewrite decide_False by done.
  by rewrite Hp.
Qed.

(** Only the head of the target reaches the body of the search; the
    target itself is named by the error the search raises for it (an error
    of a sub-search names the sub-goal). *)
Lemma find_actions_first_item fuel start_state kv rest :
  find_actions self fuel (kv :: rest) start_state
  = find_actions self fuel [kv] start_state
  ∨ (find_actions self fuel (kv :: rest) start_state
       = Raised (NoActionAvailable (kv :: rest))
     ∧ find_actions self fuel [kv] start_state
       = Raised (NoActionAvailable [kv])).
Proof.
  destruct fuel as [|fuel]; [by left|]. destruct kv as [gk gv].
  rewrite !find_actions_S.
  case_decide; [by left|].
  destruct (probable_actions_for self gk (check_references gv start_state))
    as [|a l]; [by left|].
  destruct (explore _ _ (a :: l) []) as [chosen|e|]; cbn [bind];
    [|by left|by left].
  destruct (path_cost chosen) as [c|e|]; cbn [bind]; [|by left|by left].
  destruct (exceeds_float_max c); [by right|by left].
Qed.

End SearchFacts.

(** ** The action index *)

Lemma index_effects_elem (action : Action) (effs : State)
    (m : gmap (string * value) (list Action)) (kv : string * value) (a : Action) :
  a ∈ foldl (λ lookup_actions kv',
               <[kv' := (lookup_actions !!! kv') ++ [action]]> lookup_actions)
            m effs !!! kv
  ↔ a ∈ m !!! kv ∨ (a = action ∧ kv ∈ effs).
Proof.
  revert m. induction effs as [|kv' effs IH]; intros m; simpl.
  - rewrite elem_of_nil. tauto.
  - rewrite IH, elem_of_cons. destruct (decide (kv' = kv)) as [->|Hne].
    + rewrite lookup_total_insert_eq, elem_of_app, list_elem_of_singleton.
      tauto.
    + rewrite lookup_total_insert_ne by done. intuition congruence.
Qed.

Lemma create_action_lookup_elem (actions : list Action) (kv : string * value)
    (a : Action) :
  a ∈ create_action_lookup actions !!! kv ↔ a ∈ actions ∧ kv ∈ effects a.
Proof.
  unfold create_action_lookup.
  assert (∀ m : gmap (string * value) (list Action),
    a ∈ foldl (λ lookup_actions action,
                 foldl (λ lookup_actions kv',
                          <[kv' := (lookup_actions !!! kv') ++ [action]]>
                            lookup_actions)
                       lookup_actions (effects action)) m actions !!! kv
    ↔ a ∈ m !!! kv ∨ (a ∈ actions ∧ kv ∈ effects a)) as Hgen.
  { induction actions as [|action actions IH]; intros m; simpl.
    - rewrite elem_of_nil. tauto.
    - rewrite IH, index_effects_elem, elem_of_cons.
      split; [|intuition congruence].
      intros [[?|[-> ?]]|[? ?]]; tauto. }
  rewrite Hgen, lookup_total_empty. simpl. rewrite elem_of_nil. tauto.
Qed.

(** A goal no action produces, fixed or wildcard, has no candidate. *)
Lemma probable_actions_for_nil (actions : list Action) (gk : string) (gv : value) :
  (∀ a, a ∈ actions →
     ((gk, gv) ∉ effects a) ∧ ((gk, VEllipsis) ∉ effects a)) →
  probable_actions_for (new_planner actions) gk gv = [].
Proof.
  intros H. unfold probable_actions_for, new_planner. simpl.
  assert (∀ v, (∀ a, a ∈ actions → (gk, v) ∉ effects a) →
               create_action_lookup actions !!! (gk, v) = []) as Hnil.
  { intros v Hv. destruct (create_action_lookup actions !!! (gk, v))
      as [|a l] eqn:E; [done|].
    assert (a ∈ create_action_lookup actions !!! (gk, v)) as Ha
      by (rewrite E; apply list_elem_of_here).
    apply create_action_lookup_elem in Ha as [Ha1 Ha2]. by destruct (Hv a Ha1). }
  rewrite (Hnil gv) by (intros a Ha; apply (H a Ha)).
  apply Hnil. intros a Ha. apply (H a Ha).
Qed.

(** ** Goals met by the start state, empty goals, goals of several
       predicates *)

(** C4: when the first goal predicate, resolved against the start state, is
    a (key, value) pair of the start state, [find_plan] returns the empty
    plan, whatever the action index holds. *)
Theorem find_plan_goal_already_met (self : Planner) (fuel : nat)
    (start_state : State) (gk : string) (gv : value) (rest : State) :
  (gk, check_references gv start_state) ∈ start_state →
  find_plan self (S fuel) start_state ((gk, gv) :: rest) = Return [].
Proof.
  intros H. unfold find_plan. by rewrite find_actions_satisfied.
Qed.

Lemma find_plan_goal_already_met_witness :
  find_plan (new_planner [Scenarios.B1; Scenarios.B2]) 1
            [("has_key", VBool true); ("base_color", VStr "red")]
            [("base_color", VStr "@base_color"); ("key", VStr "open")]
  = Return [].
Proof.
  apply find_plan_goal_already_met. vm_compute.
  apply list_elem_of_further, list_elem_of_here.
Defined.

(** C10: with an empty target state [find_plan] raises the out-of-range
    indexing error of [list(target_state.items())[0]]; it returns no plan
    and raises no unreachable-goal error. *)
Theorem find_plan_empty_target (self : Planner) (fuel : nat)
    (start_state : State) :
  find_plan self (S fuel) start_state [] = Raised IndexError.
Proof. reflexivity. Qed.

(** C9: [find_plan] on a target of several predicates returns the plan it
    returns on the first predicate alone; the two calls also fail together,
    and then with the same error, or each with the unreachable-goal error
    that names its own target. *)
Theorem find_plan_first_predicate (self : Planner) (fuel : nat)
    (start_state : State) (kv : string * value) (rest : State) :
  (∀ plan, find_plan self fuel start_state (kv :: rest) = Return plan
           ↔ find_plan self fuel start_state [kv] = Return plan)
  ∧ (find_plan self fuel start_state (kv :: rest)
       = find_plan self fuel start_state [kv]
     ∨ (find_plan self fuel start_state (kv :: rest)
          = Raised (NoActionAvailable (kv :: rest))
        ∧ find_plan self fuel start_state [kv]
          = Raised (NoActionAvailable [kv]))).
Proof.
  unfold find_plan.
  destruct (find_actions_first_item self fuel start_state kv rest)
    as [->|[-> ->]]; simpl.
  - split; [done|by left].
  - split; [done|by right].
Qed.

(** ** Goals without a candidate *)

Lemma find_plan_no_candidate (actions : list Action) (fuel : nat)
    (start_state : State) (gk : string) (gv : value) (rest : State) :
  (gk, check_references gv start_state) ∉ start_state →
  (∀ a, a ∈ actions →
     ((gk, check_references gv start_state) ∉ effects a)
     ∧ ((gk, VEllipsis) ∉ effects a)) →
  find_plan (new_planner actions) (S fuel) start_state ((gk, gv) :: rest)
  = Return [(ActionImpossible, [])].
Proof.
  intros Hstart Hnone. unfold find_plan.
  rewrite find_actions_no_candidate; [done|done|].
  by apply probable_actions_for_nil.
Qed.

(** C1: on the catalog of scenario 1, where no action produces
    [teleported], [find_plan] does not fail: it returns the plan that maps
    the impossible action to the empty state. *)
Theorem find_plan_unreachable_goal_returns_sentinel (fuel : nat) :
  find_plan (new_planner [Scenarios.A1; Scenarios.A2]) (S fuel) []
            [("teleported", VBool true)]
  = Return [(ActionImpossible, [])].
Proof. vm_compute. reflexivity. Qed.

(** ** The reference resolver, as the code has it *)

(** C5, as the code has it: a string is replaced by the context state's
    value for the key that remains when its first character, whichever it
    is, is dropped, exactly when that remainder is a key of the context
    state; every other value is returned unchanged. *)
Theorem check_references_drops_first_character (ref : value) (state : State) :
  (∀ s, ref = VStr s → drop_first s ∈ state.*1 →
     ∃ v, state_get (drop_first s) state = Some v
          ∧ (drop_first s, v) ∈ state
          ∧ check_references ref state = v)
  ∧ ((∀ s, ref = VStr s → drop_first s ∉ state.*1) →
     check_references ref state = ref).
Proof.
  split.
  - intros s -> Hin. simpl.
    destruct (state_get (drop_first s) state) as [v|] eqn:E.
    + exists v. split; [done|]. split; [by apply state_get_Some|done].
    + by apply state_get_None in E.
  - intros H. destruct ref as [z|s| |]; try done. simpl.
    destruct (state_get (drop_first s) state) as [v|] eqn:E; [|done].
    apply state_get_Some in E. destruct (H s eq_refl).
    by apply (list_elem_of_fmap_2 fst) in E.
Qed.

Lemma check_references_drops_first_character_witness :
  check_references (VStr "@base_color") [("base_color", VStr "red")]
  = VStr "red"
  ∧ check_references (VStr "@size") [("base_color", VStr "red")]
  = VStr "@size".
Proof.
  split.
  - destruct (proj1 (check_references_drops_first_character
                       (VStr "@base_color") [("base_color", VStr "red")])
                    "@base_color" eq_refl) as (v & Hget & _ & ->).
    + apply list_elem_of_here.
    + vm_compute in Hget. by injection Hget as <-.
  - apply (proj2 (check_references_drops_first_character
                    (VStr "@size") [("base_color", VStr "red")])).
    intros s [= <-]. vm_compute. by intros ?%list_elem_of_singleton.
Defined.

(** Whatever the sigil is, some string that does not begin with it is
    resolved all the same. *)
Lemma check_references_any_sigil (sigil : Ascii.ascii) :
  ∃ c : Ascii.ascii,
    c ≠ sigil
    ∧ check_references (VStr (String c "base_color"))
        [("base_color", VStr "red")] = VStr "red"
    ∧ check_references_sigil sigil (VStr (String c "base_color"))
        [("base_color", VStr "red")] = VStr (String c "base_color").
Proof.
  exists (if decide (sigil = "#"%char) then "$"%char else "#"%char).
  case_decide as Hs.
  - subst sigil. split; [done|]. split; reflexivity.
  - split; [congruence|]. split; [reflexivity|].
    simpl. by rewrite decide_False by congruence.
Qed.

(** C5, as stated, fails: with the sigil [@], the string ["#base_color"]
    does not begin with the sigil, yet it is replaced by the value of
    [base_color]. *)
Lemma check_references_ignores_sigil :
  check_references (VStr "#base_color") [("base_color", VStr "red")]
  = VStr "red"
  ∧ check_references_sigil "@"%char (VStr "#base_color") [("base_color", VStr "red")]
  = VStr "#base_color".
Proof. split; reflexivity. Qed.

(** ** First occurrences *)

Section FirstOccurrences.
Context {A : Type} `{EqDecision A}.
Implicit Types l : list A.

Lemma first_occurrences_elem l x : x ∈ first_occurrences l ↔ x ∈ l.
Proof.
  induction l as [|y l IH]; simpl; [done|].
  rewrite !elem_of_cons, list_elem_of_filter, IH.
  destruct (decide (x = y)); tauto.
Qed.

Lemma first_occurrences_NoDup l : NoDup (first_occurrences l).
Proof.
  induction l as [|y l IH]; simpl; [by apply NoDup_nil|].
  apply NoDup_cons. split.
  - rewrite list_elem_of_filter. by intros [? _].
  - by apply NoDup_filter.
Qed.

Lemma first_occurrences_sublist l : first_occurrences l `sublist_of` l.
Proof.
  induction l as [|y l IH]; simpl; [done|].
  apply sublist_skip. etrans; [apply sublist_filter|done].
Qed.

Lemma first_occurrences_app l1 l2 :
  first_occurrences (l1 ++ l2)
  = first_occurrences l1 ++ filter (λ y, y ∉ l1) (first_occurrences l2).
Proof.
  induction l1 as [|x l1 IH]; simpl.
  - symmetry. induction (first_occurrences l2) as [|z k IHk]; [done|].
    rewrite filter_cons_True by apply not_elem_of_nil. by rewrite IHk.
  - f_equal. rewrite IH, filter_app. f_equal.
    rewrite list_filter_filter. apply list_filter_iff.
    intros z. rewrite not_elem_of_cons. tauto.
Qed.

(** Appending an element adds it when it is new and changes nothing when
    it has occurred: this determines [first_occurrences]. *)
Lemma first_occurrences_snoc l x :
  first_occurrences (l ++ [x])
  = if decide (x ∈ l) then first_occurrences l
    else first_occurrences l ++ [x].
Proof.
  rewrite first_occurrences_app. simpl.
  case_decide as Hx.
  - rewrite filter_cons_False by tauto. by rewrite app_nil_r.
  - by rewrite filter_cons_True.
Qed.

Lemma first_occurrences_NoDup_id l : NoDup l → first_occurrences l = l.
Proof.
  induction 1 as [|x l Hx Hl IH]; simpl; [done|].
  rewrite IH. f_equal. clear IH Hl.
  induction l as [|y l IH]; [done|].
  apply not_elem_of_cons in Hx as [Hxy Hx].
  rewrite filter_cons_True by congruence. by rewrite IH.
Qed.

Lemma first_occurrences_idemp l :
  first_occurrences (first_occurrences l) = first_occurrences l.
Proof. apply first_occurrences_NoDup_id, first_occurrences_NoDup. Qed.

(** An element of [first_occurrences l] stands where it first occurs in
    [l], behind the first occurrences of what precedes it. *)
Lemma first_occurrences_split l1 x l2 :
  x ∉ l1 →
  ∃ k, first_occurrences (l1 ++ x :: l2) = first_occurrences l1 ++ x :: k.
Proof.
  intros Hx. rewrite first_occurrences_app. simpl.
  rewrite filter_cons_True by done. eauto.
Qed.

Lemma NoDup_split_unique (k1 k2 k1' k2' : list A) x :
  k1 ++ x :: k2 = k1' ++ x :: k2' → x ∉ k1 → x ∉ k1' → k1 = k1'.
Proof.
  revert k1'. induction k1 as [|y k1 IH]; intros [|y' k1'] Heq H1 H2;
    simpl in Heq.
  - done.
  - injection Heq as -> _. exfalso. apply H2, list_elem_of_here.
  - injection Heq as -> _. exfalso. apply H1, list_elem_of_here.
  - injection Heq as -> Heq. f_equal.
    apply not_elem_of_cons in H1 as [_ H1], H2 as [_ H2]. by apply IH.
Qed.
(** What precedes an element in [first_occurrences l] holds all that
    precedes its first occurrence in [l]. *)
Lemma first_occurrences_split_inv l (u1 u2 : list A) x :
  first_occurrences l = u1 ++ x :: u2 →
  ∃ l1 l2, l = l1 ++ x :: l2 ∧ ∀ y, y ∈ l1 → y ∈ u1.
Proof.
  revert u2. induction l as [|z l IH] using rev_ind; intros u2.
  - by destruct u1.
  - rewrite first_occurrences_snoc.
    assert (first_occurrences l = u1 → x = z →
            ∃ l1 l2, l ++ [z] = l1 ++ x :: l2 ∧ ∀ y, y ∈ l1 → y ∈ u1)
      as Hlast.
    { intros <- ->. exists l, []. split; [done|].
      intros y. by rewrite first_occurrences_elem. }
    assert (∀ k, first_occurrences l = u1 ++ x :: k →
            ∃ l1 l2, l ++ [z] = l1 ++ x :: l2 ∧ ∀ y, y ∈ l1 → y ∈ u1)
      as Hearlier.
    { intros k (l1 & l2 & -> & Hl1)%IH. exists l1, (l2 ++ [z]).
      split; [by rewrite <- app_assoc|done]. }
    case_decide as Hz; [apply Hearlier|].
    intros [(k & Hk1 & Hk2)|(k & Hk1 & Hk2)]%app_eq_inv.
    + destruct k as [|x' k]; simpl in Hk2.
      * injection Hk2 as -> ->. rewrite app_nil_r in Hk1. by apply Hlast.
      * injection Hk2 as <- _. by apply (Hearlier k).
    + destruct k as [|x' k]; simpl in Hk2.
      * injection Hk2 as <- _. rewrite app_nil_r in Hk1. by apply Hlast.
      * injection Hk2 as _ Hk2. by destruct k.
Qed.

Lemma fmap_first_split {B : Type} (f : B → A) (k : list B) x :
  x ∈ f <$> k →
  ∃ (k1 : list B) y (k2 : list B),
    k = k1 ++ y :: k2 ∧ f y = x ∧ x ∉ f <$> k1.
Proof.
  induction k as [|y k IH]; [by intros ?%elem_of_nil|].
  destruct (decide (f y = x)) as [Hy|Hy].
  - intros _. exists [], y, k. split; [done|]. split; [done|].
    apply not_elem_of_nil.
  - rewrite fmap_cons, elem_of_cons. intros [?|Hin]; [congruence|].
    destruct (IH Hin) as (k1 & y' & k2 & -> & Hy' & Hk1).
    exists (y :: k1), y', k2. split; [done|]. split; [done|].
    rewrite fmap_cons, not_elem_of_cons. split; [congruence|done].
Qed.
End FirstOccurrences.

(** ** [__unique] keeps first occurrences *)

Lemma unique_from_first_occurrences (seen : list Step) (path : Path) :
  unique_from seen path = filter (λ y, y ∉ seen) (first_occurrences path).
Proof.
  revert seen. induction path as [|x rest IH]; intros seen; simpl; [done|].
  case_decide as Hx.
  - rewrite filter_cons_False by tauto.
    rewrite IH, list_filter_filter. apply list_filter_iff.
    intros y. split; [|tauto]. intros Hy. split; [done|]. by intros ->.
  - rewrite filter_cons_True by done. f_equal.
    rewrite IH, list_filter_filter. apply list_filter_iff.
    intros y. rewrite not_elem_of_cons. tauto.
Qed.

Lemma unique_first_occurrences (path : Path) :
  unique path = first_occurrences path.
Proof.
  unfold unique. rewrite unique_from_first_occurrences.
  induction (first_occurrences path) as [|z k IHk]; [done|].
  rewrite filter_cons_True by apply not_elem_of_nil. by rewrite IHk.
Qed.

Lemma unique_elem (path : Path) (x : Step) : x ∈ unique path ↔ x ∈ path.
Proof. rewrite unique_first_occurrences. apply first_occurrences_elem. Qed.

Lemma unique_NoDup (path : Path) : NoDup (unique path).
Proof. rewrite unique_first_occurrences. apply first_occurrences_NoDup. Qed.

(** ** [__path_to_plan] *)

Lemma plan_set_keys (plan : Plan) (a : Action) (e : State) :
  (plan_set plan a e).*1
  = if decide (a ∈ plan.*1) then plan.*1 else plan.*1 ++ [a].
Proof.
  induction plan as [|[a' e'] plan IH].
  - by rewrite decide_False by apply not_elem_of_nil.
  - cbn [plan_set]. rewrite fmap_cons. cbn [fst].
    destruct (decide (a' = a)) as [->|Hne].
    + by rewrite decide_True by apply list_elem_of_here.
    + rewrite fmap_cons, IH. cbn [fst].
      destruct (decide (a ∈ plan.*1)) as [Hin|Hin].
      * by rewrite decide_True by by apply list_elem_of_further.
      * rewrite decide_False; [done|].
        rewrite not_elem_of_cons. split; [congruence|done].
Qed.

Lemma plan_set_elem (plan : Plan) (a : Action) (e : State) :
  (a, e) ∈ plan_set plan a e.
Proof.
  induction plan as [|[a' e'] plan IH]; simpl.
  - apply list_elem_of_here.
  - case_decide as Ha.
    + subst a'. apply list_elem_of_here.
    + by apply list_elem_of_further.
Qed.

Lemma plan_set_other (plan : Plan) (a a' : Action) (e e' : State) :
  a' ≠ a → (a', e') ∈ plan → (a', e') ∈ plan_set plan a e.
Proof.
  intros Hne. induction plan as [|[a0 e0] plan IH]; simpl.
  - by intros ?%elem_of_nil.
  - rewrite elem_of_cons. intros [[= <- <-]|Hin].
    + rewrite decide_False by done. apply list_elem_of_here.
    + case_decide; apply list_elem_of_further; [done|by apply IH].
Qed.

Lemma plan_set_new (plan : Plan) (a : Action) (e : State) :
  a ∉ plan.*1 → plan_set plan a e = plan ++ [(a, e)].
Proof.
  induction plan as [|[a' e'] plan IH]; simpl; [done|].
  rewrite not_elem_of_cons. intros [Hne Hin].
  rewrite decide_False by congruence. by rewrite IH.
Qed.

Lemma path_to_plan_snoc (path : Path) (x : Step) :
  path_to_plan (path ++ [x])
  = plan_set (path_to_plan path) (step_action x) (step_outcome x).
Proof. unfold path_to_plan. by rewrite foldl_app. Qed.

(** The keys of the plan are the first occurrences of the path's actions. *)
Lemma path_to_plan_keys (path : Path) :
  (path_to_plan path).*1 = first_occurrences (step_action <$> path).
Proof.
  induction path as [|x path IH] using rev_ind; [done|].
  rewrite path_to_plan_snoc, plan_set_keys, fmap_app, IH. simpl.
  rewrite first_occurrences_snoc.
  destruct (decide (step_action x ∈ step_action <$> path)) as [Hin|Hin].
  - by rewrite decide_True by by apply first_occurrences_elem.
  - rewrite decide_False; [done|]. by rewrite first_occurrences_elem.
Qed.

(** The state of a key is the outcome of the last triple of its action. *)
Lemma path_to_plan_last (l1 l2 : Path) (a : Action) (e : State) (c : Cost) :
  a ∉ step_action <$> l2 →
  (a, e) ∈ path_to_plan (l1 ++ (a, e, c) :: l2).
Proof.
  induction l2 as [|x l2 IH] using rev_ind; intros Hnot.
  - rewrite path_to_plan_snoc. apply plan_set_elem.
  - rewrite fmap_app, not_elem_of_app in Hnot. destruct Hnot as [Hl2 Hx].
    rewrite app_comm_cons, app_assoc, path_to_plan_snoc.
    apply plan_set_other; [|by apply IH].
    intros ->. apply Hx. simpl. apply list_elem_of_here.
Qed.

Lemma plan_key_unique (plan : Plan) (a : Action) (e e' : State) :
  NoDup plan.*1 → (a, e) ∈ plan → (a, e') ∈ plan → e = e'.
Proof.
  induction plan as [|[a0 e0] plan IH]; simpl.
  - by intros _ ?%elem_of_nil.
  - rewrite NoDup_cons, !elem_of_cons. intros [Hnot Hnd] [He|He] [He'|He'].
    + congruence.
    + injection He as -> ->. destruct Hnot.
      by apply (list_elem_of_fmap_2 fst) in He'.
    + injection He' as -> ->. destruct Hnot.
      by apply (list_elem_of_fmap_2 fst) in He.
    + by apply IH.
Qed.

(** C8: the plan built from a path holds each action once, in the order of
    the actions' first occurrences in the path, and gives each action a
    single state (that of the last triple of the action). *)
Theorem path_to_plan_keys_once (path : Path) :
  NoDup (path_to_plan path).*1
  ∧ (path_to_plan path).*1 = first_occurrences (step_action <$> path)
  ∧ (∀ a e e', (a, e) ∈ path_to_plan path → (a, e') ∈ path_to_plan path →
               e = e')
  ∧ (∀ l1 a e c l2, path = l1 ++ (a, e, c) :: l2 →
                    a ∉ step_action <$> l2 → (a, e) ∈ path_to_plan path).
Proof.
  assert (NoDup (path_to_plan path).*1) as Hnd
    by (rewrite path_to_plan_keys; apply first_occurrences_NoDup).
  split; [done|]. split; [apply path_to_plan_keys|]. split.
  - intros a e e'. by apply plan_key_unique.
  - intros l1 a e c l2 -> Hnot. by apply path_to_plan_last.
Qed.

(** ** The shape of what the loops return *)

Lemma choose_Return (chosen_path action_path r : Path) :
  choose chosen_path action_path = Return r →
  r = chosen_path ∨ r = action_path.
Proof.
  unfold choose. destruct chosen_path as [|x rest]; [intros [= <-]; by right|].
  destruct (path_cost (x :: rest)) as [c1| |]; cbn [bind]; [|done|done].
  destruct (path_cost action_path) as [c2| |]; cbn [bind]; [|done|done].
  intros [= <-]. destruct (cost_ltb c2 c1); [by right|by left].
Qed.

Lemma choose_nonempty (chosen_path action_path r : Path) :
  action_path ≠ [] →
  choose chosen_path action_path = Return r → r ≠ [].
Proof.
  intros Hne Hr. destruct chosen_path as [|x rest].
  - by injection Hr as <-.
  - apply choose_Return in Hr as [->| ->]; done.
Qed.

Section Loops.
Variable solve : State → outcome Path.
Variable expected_outcome : State.

Lemma solve_preconditions_Return pre acc r :
  solve_preconditions solve expected_outcome pre acc = Return r →
  ∃ subs, r = acc ++ concat subs
          ∧ Forall (λ p, ∃ t, solve t = Return p) subs.
Proof.
  revert acc. induction pre as [|[pk pv] pre IH]; intros acc; simpl.
  - intros [= <-]. exists []. by rewrite app_nil_r.
  - destruct (solve _) as [p| |] eqn:E; simpl; [|done|done].
    intros (subs & -> & Hsubs)%IH. exists (p :: subs). split.
    + simpl. by rewrite app_assoc.
    + constructor; eauto.
Qed.

Lemma candidate_path_Return action r :
  candidate_path solve expected_outcome action = Return r →
  ∃ sub, solve_preconditions solve expected_outcome
           (preconditions action) [] = Return sub
         ∧ r = sub ++ [(action, expected_outcome, cost action)].
Proof.
  unfold candidate_path.
  destruct (solve_preconditions _ _ _ _) as [sub| |]; simpl; [|done|done].
  intros [= <-]. eauto.
Qed.


Lemma explore_Return probable_actions chosen r :
  explore solve expected_outcome probable_actions chosen = Return r →
  r = chosen
  ∨ ∃ action, action ∈ probable_actions
              ∧ candidate_path solve expected_outcome action = Return r.
Proof.
  revert chosen.
  induction probable_actions as [|action rest IH]; intros chosen; simpl.
  - intros [= <-]. by left.
  - destruct (candidate_path _ _ action) as [p| |] eqn:E; simpl;
      [|done|done].
    destruct (choose chosen p) as [chosen'| |] eqn:Echoose; simpl;
      [|done|done].
    apply choose_Return in Echoose.
    intros [->|(a & Ha & Hr)]%IH.
    + destruct Echoose as [->| ->]; [by left|].
      right. exists action. split; [apply list_elem_of_here|done].
    + right. exists a. split; [by apply list_elem_of_further|done].
Qed.

End Loops.

(** A search that returns with some budget returns the same with more. *)
Lemma solve_preconditions_mono (solve1 solve2 : State → outcome Path)
    (expected_outcome pre : State) (acc r : Path) :
  (∀ t p, solve1 t = Return p → solve2 t = Return p) →
  solve_preconditions solve1 expected_outcome pre acc = Return r →
  solve_preconditions solve2 expected_outcome pre acc = Return r.
Proof.
  intros Hsolve. revert acc.
  induction pre as [|[pk pv] pre IH]; intros acc; simpl; [done|].
  destruct (solve1 _) as [p| |] eqn:E; simpl; [|done|done].
  rewrite (Hsolve _ _ E). simpl. apply IH.
Qed.

Lemma explore_mono (solve1 solve2 : State → outcome Path)
    (expected_outcome : State) (probable_actions : list Action)
    (chosen r : Path) :
  (∀ t p, solve1 t = Return p → solve2 t = Return p) →
  explore solve1 expected_outcome probable_actions chosen = Return r →
  explore solve2 expected_outcome probable_actions chosen = Return r.
Proof.
  intros Hsolve. revert chosen.
  induction probable_actions as [|action rest IH]; intros chosen; simpl;
    [done|].
  unfold candidate_path.
  destruct (solve_preconditions solve1 _ _ _) as [p| |] eqn:E; simpl;
    [|done|done].
  rewrite (solve_preconditions_mono _ _ _ _ _ _ Hsolve E). simpl.
  destruct (choose chosen _) as [chosen'| |]; simpl; [apply IH|done|done].
Qed.

Lemma find_actions_mono (self : Planner) (fuel fuel' : nat)
    (target_state start_state : State) (path : Path) :
  find_actions self fuel target_state start_state = Return path →
  (fuel ≤ fuel')%nat →
  find_actions self fuel' target_state start_state = Return path.
Proof.
  revert fuel' target_state path.
  induction fuel as [|fuel IH]; intros fuel' target_state path; [done|].
  intros Hret Hle. destruct fuel' as [|fuel']; [lia|].
  rewrite find_actions_S in Hret |- *.
  destruct target_state as [|[gk gv] rest]; [done|].
  case_decide; [done|].
  destruct (probable_actions_for _ _ _) as [|a l]; [done|].
  destruct (explore _ _ (a :: l) []) as [chosen| |] eqn:E;
    simpl in Hret; [|done|done].
  erewrite explore_mono; [exact Hret| |exact E].
  intros t p Hp. apply IH; [done|lia].
Qed.

Lemma preconditions_path_mono (self : Planner) (fuel fuel' : nat)
    (start_state : State) (action : Action) (expected_outcome : State)
    (sub : Path) :
  preconditions_path self fuel start_state action expected_outcome
  = Return sub →
  (fuel ≤ fuel')%nat →
  preconditions_path self fuel' start_state action expected_outcome
  = Return sub.
Proof.
  intros H Hle. unfold preconditions_path in *.
  eapply solve_preconditions_mono; [|exact H].
  intros t p Hp. simpl in *. by apply (find_actions_mono _ fuel).
Qed.

(** What a search returns: nothing when the goal is met, the sentinel when
    it has no candidate, else the deduplicated path of a candidate of no
    excessive cost. *)
Lemma find_actions_Return (self : Planner) (fuel : nat)
    (target_state start_state : State) (path : Path) :
  find_actions self fuel target_state start_state = Return path →
  path = []
  ∨ path = [(ActionImpossible, [], Inf)]
  ∨ ∃ fuel' action expected_outcome sub,
      fuel = S fuel'
      ∧ preconditions_path self fuel' start_state action expected_outcome
        = Return sub
      ∧ (∃ c, path_cost (sub ++ [(action, expected_outcome, cost action)])
              = Return c
              ∧ exceeds_float_max c = false)
      ∧ path = unique (sub ++ [(action, expected_outcome, cost action)]).
Proof.
  destruct fuel as [|fuel]; [done|]. rewrite find_actions_S.
  destruct target_state as [|[gk gv] rest]; [done|].
  case_decide; [intros [= <-]; by left|].
  destruct (probable_actions_for _ _ _) as [|a l];
    [intros [= <-]; right; by left|].
  destruct (explore _ _ (a :: l) []) as [chosen| |] eqn:E; simpl;
    [|done|done].
  destruct (path_cost chosen) as [c| |] eqn:Esum; cbn [bind]; [|done|done].
  destruct (exceeds_float_max c) eqn:Ecost; [done|].
  intros [= <-].
  apply explore_Return in E as [->|(action & _ & Hc)]; [by left|].
  apply candidate_path_Return in Hc as (sub & Hsub & ->).
  right; right.
  exists fuel, action, [(gk, check_references gv start_state)], sub.
  split; [done|]. split; [done|]. split; [by exists c|done].
Qed.

(** ** The returned path holds first occurrences only *)

Lemma first_occurrences_fmap {A B : Type} `{EqDecision A} `{EqDecision B}
    (f : A → B) (l : list A) :
  first_occurrences (f <$> first_occurrences l) = first_occurrences (f <$> l).
Proof.
  induction l as [|x l IH] using rev_ind; [done|].
  rewrite fmap_app. change (f <$> [x]) with [f x].
  rewrite !first_occurrences_snoc.
  destruct (decide (x ∈ l)) as [Hx|Hx].
  - rewrite IH. rewrite decide_True; [done|]. by apply list_elem_of_fmap_2.
  - rewrite fmap_app. change (f <$> [x]) with [f x].
    rewrite first_occurrences_snoc, IH.
    apply decide_ext. rewrite !list_elem_of_fmap.
    by setoid_rewrite first_occurrences_elem.
Qed.

(** C6: when the search has assembled the path [chosen] for a goal, what it
    returns is [chosen] cut down to the first occurrence of each distinct
    triple, in the order of [chosen]; the plan built from it holds each
    action once, at the place of its first occurrence in [chosen]. *)
Theorem find_actions_keeps_first_occurrences (self : Planner) (fuel : nat)
    (start_state : State) (gk : string) (gv : value) (rest : State)
    (chosen : Path) (chosen_cost : Cost) :
  (gk, check_references gv start_state) ∉ start_state →
  probable_actions_for self gk (check_references gv start_state) ≠ [] →
  explore (λ t, find_actions self fuel t start_state)
    [(gk, check_references gv start_state)]
    (probable_actions_for self gk (check_references gv start_state)) []
  = Return chosen →
  path_cost chosen = Return chosen_cost →
  exceeds_float_max chosen_cost = false →
  find_actions self (S fuel) ((gk, gv) :: rest) start_state
  = Return (first_occurrences chosen)
  ∧ NoDup (first_occurrences chosen)
  ∧ first_occurrences chosen `sublist_of` chosen
  ∧ (∀ x, x ∈ chosen → x ∈ first_occurrences chosen)
  ∧ find_plan self (S fuel) start_state ((gk, gv) :: rest)
    = Return (path_to_plan (first_occurrences chosen))
  ∧ NoDup (path_to_plan (first_occurrences chosen)).*1
  ∧ (path_to_plan (first_occurrences chosen)).*1
    = first_occurrences (step_action <$> chosen).
Proof.
  intros Hstart Hcand Hexplore Hsum Hcost.
  assert (find_actions self (S fuel) ((gk, gv) :: rest) start_state
          = Return (first_occurrences chosen)) as Hret.
  { rewrite find_actions_S, decide_False by done.
    destruct (probable_actions_for _ _ _) as [|a l]; [done|].
    rewrite Hexplore. cbn [bind]. rewrite Hsum. cbn [bind].
    by rewrite Hcost, unique_first_occurrences. }
  split; [done|]. split; [apply first_occurrences_NoDup|].
  split; [apply first_occurrences_sublist|].
  split; [intros x; by rewrite first_occurrences_elem|].
  split; [unfold find_plan; by rewrite Hret|].
  rewrite path_to_plan_keys, first_occurrences_fmap.
  split; [apply first_occurrences_NoDup|done].
Qed.

Lemma find_actions_keeps_first_occurrences_witness :
  find_actions (new_planner Bakery.catalog) 3 Bakery.goal []
  = Return (first_occurrences Bakery.chosen_path)
  ∧ first_occurrences Bakery.chosen_path = Bakery.path
  ∧ (path_to_plan (first_occurrences Bakery.chosen_path)).*1
    = [Bakery.BuyFlour; Bakery.MakeDough; Bakery.MakeRoux; Bakery.BakePie].
Proof.
  destruct (find_actions_keeps_first_occurrences
              (new_planner Bakery.catalog) 2 [] "pie" (VBool true) []
              Bakery.chosen_path (Fin 9)) as (H1 & _ & _ & _ & _ & _ & H2).
  - apply not_elem_of_nil.
  - vm_compute. discriminate.
  - vm_compute. reflexivity.
  - vm_compute. reflexivity.
  - vm_compute. reflexivity.
  - split; [exact H1|]. split; [vm_compute; reflexivity|].
    rewrite H2. vm_compute. reflexivity.
Defined.

(** ** The cheapest candidate *)

Lemma cost_ltb_irrefl (a : Cost) : cost_ltb a a = false.
Proof. destruct a; simpl; [|done]. apply bool_decide_eq_false. lia. Qed.



(** A later path of the same cost does not replace the running best. *)
Lemma choose_tie (chosen_path action_path : Path) (c : Cost) :
  path_cost chosen_path = Return c →
  path_cost action_path = Return c →
  chosen_path ≠ [] →
  choose chosen_path action_path = Return chosen_path.
Proof.
  intros Hchosen Haction Hne. unfold choose.
  destruct chosen_path as [|x rest]; [done|].
  rewrite Hchosen, Haction. cbn [bind]. by rewrite cost_ltb_irrefl.
Qed.




(** ** The sum of a path *)

Lemma path_cost_snoc (path : Path) (x : Step) :
  path_cost (path ++ [x])
  = let* c := path_cost path in cost_add c (cost (step_action x)).
Proof. unfold path_cost. by rewrite foldl_app. Qed.

Lemma cost_add_Return (a b c : Cost) :
  cost_add a b = Return c →
  c = match a, b with Fin x, Fin y => Fin (x + y) | _, _ => Inf end.
Proof.
  destruct a as [x|], b as [y|]; simpl; try (by intros [= <-]);
    destruct (int_too_large _); by intros [= <-].
Qed.




(** Integers add without error, whatever their size. *)
Lemma path_cost_integers (path : Path) :
  Forall (λ x, ∃ z, cost (step_action x) = Fin z) path →
  ∃ z, path_cost path = Return (Fin z).
Proof.
  induction path as [|x path IH] using rev_ind; intros Hall.
  - by exists 0.
  - apply Forall_app in Hall as [Hpath Hx].
    apply Forall_cons in Hx as [[z Hz] _].
    destruct (IH Hpath) as [a Ha]. rewrite path_cost_snoc, Ha, Hz.
    by exists (a + z).
Qed.

(** ** The cheapest candidate *)




(** ** Unreachable sub-goals *)

(** C3: in the workshop, [power] has a candidate ([Generate]) whose own
    precondition has none; the sub-search for [power] raises, and the whole
    search fails although [Push] alone opens the door.  Without [Generate]
    the sub-search returns the sentinel and [Push] is chosen. *)
Theorem find_plan_sub_search_raises (fuel : nat) :
  find_plan (new_planner Workshop.catalog) (S (S (S fuel))) [] Workshop.goal
  = Raised (NoActionAvailable [("power", VBool true)])
  ∧ find_plan (new_planner [Workshop.Push]) (S fuel) [] Workshop.goal
    = Return [(Workshop.Push, Workshop.goal)]
  ∧ find_plan (new_planner [Workshop.Pull; Workshop.Push]) (S (S fuel)) []
              Workshop.goal
    = Return [(Workshop.Push, Workshop.goal)].
Proof. split; [|split]; vm_compute; reflexivity. Qed.

(** ** Topological validity *)

Section Topological.
Variable self : Planner.
Variable start_state : State.

Lemma path_topologically_valid_nil :
  path_topologically_valid self start_state [].
Proof. intros l1 x l2 H. by destruct l1. Qed.

Lemma path_topologically_valid_app (p q : Path) :
  path_topologically_valid self start_state p →
  path_topologically_valid self start_state q →
  path_topologically_valid self start_state (p ++ q).
Proof.
  intros Hp Hq l1 x l2 [(k & -> & Hk)|(k & -> & ->)]%app_eq_inv.
  - destruct k as [|x' k]; simpl in Hk.
    + destruct (Hq [] x l2) as (fuel & sub & Hsub & Hin); [done|].
      exists fuel, sub. split; [done|]. intros y Hy.
      specialize (Hin y Hy). by apply elem_of_nil in Hin.
    + injection Hk as <- ->. by apply (Hp l1 x k).
  - destruct (Hq k x l2 eq_refl) as (fuel & sub & Hsub & Hin).
    exists fuel, sub. split; [done|]. intros y Hy.
    apply elem_of_app. right. by apply Hin.
Qed.

Lemma path_topologically_valid_concat (subs : list Path) :
  Forall (path_topologically_valid self start_state) subs →
  path_topologically_valid self start_state (concat subs).
Proof.
  induction 1 as [|p subs Hp _ IH]; simpl.
  - apply path_topologically_valid_nil.
  - by apply path_topologically_valid_app.
Qed.

Lemma path_topologically_valid_snoc (fuel : nat) (action : Action)
    (expected_outcome : State) (sub : Path) :
  preconditions_path self fuel start_state action expected_outcome
  = Return sub →
  path_topologically_valid self start_state sub →
  path_topologically_valid self start_state
    (sub ++ [(action, expected_outcome, cost action)]).
Proof.
  intros Hsub Hvalid l1 x l2 [(k & Hk1 & Hk2)|(k & Hk1 & Hk2)]%app_eq_inv.
  - destruct k as [|x' k]; simpl in Hk2.
    + injection Hk2 as -> ->. rewrite app_nil_r in Hk1. subst l1.
      by exists fuel, sub.
    + injection Hk2 as <- _. by apply (Hvalid l1 x k).
  - destruct k as [|x' k]; simpl in Hk2.
    + injection Hk2 as <- <-. rewrite app_nil_r in Hk1. subst l1.
      by exists fuel, sub.
    + injection Hk2 as _ Hk2. by destruct k.
Qed.

Lemma path_topologically_valid_unique (path : Path) :
  path_topologically_valid self start_state path →
  path_topologically_valid self start_state (unique path).
Proof.
  intros Hvalid u1 x u2 Heq. rewrite unique_first_occurrences in Heq.
  apply first_occurrences_split_inv in Heq as (l1 & l2 & -> & Hl1).
  destruct (Hvalid l1 x l2 eq_refl) as (fuel & sub & Hsub & Hin).
  exists fuel, sub. split; [done|]. intros y Hy. by apply Hl1, Hin.
Qed.

(** Every path the search returns is topologically valid. *)
Lemma find_actions_topological (fuel : nat) (target_state : State)
    (path : Path) :
  find_actions self fuel target_state start_state = Return path →
  path_topologically_valid self start_state path.
Proof.
  revert target_state path.
  induction fuel as [|fuel IH]; intros target_state path; [done|].
  intros [->|[->|(fuel' & a & eo & sub & [= <-] & Hsub & _ & ->)]]%find_actions_Return.
  - apply path_topologically_valid_nil.
  - intros l1 x l2 Heq. destruct l1 as [|x' l1].
    + injection Heq as <- <-. exists 0%nat, []. split; [done|]. done.
    + injection Heq as _ Heq. by destruct l1.
  - apply path_topologically_valid_unique.
    apply (path_topologically_valid_snoc fuel); [done|].
    apply solve_preconditions_Return in Hsub as (subs & -> & Hsubs).
    simpl. apply path_topologically_valid_concat.
    eapply Forall_impl; [exact Hsubs|].
    intros p [t Ht]. by eapply IH.
Qed.

End Topological.

(** X11: the path behind a returned plan is topologically valid triple by
    triple, and in the plan each action comes after the actions that solve
    its preconditions for the outcome of its first occurrence in the path
    (the place the plan keeps for it). *)
Theorem find_plan_topological (self : Planner) (fuel : nat)
    (start_state target_state : State) (plan : Plan) :
  find_plan self fuel start_state target_state = Return plan →
  ∃ path,
    find_actions self fuel target_state start_state = Return path
    ∧ plan = path_to_plan path
    ∧ path_topologically_valid self start_state path
    ∧ ∀ k1 a o k2, plan = k1 ++ (a, o) :: k2 →
        ∃ l1 o1 c l2 fuel' sub,
          path = l1 ++ (a, o1, c) :: l2
          ∧ (a ∉ step_action <$> l1)
          ∧ k1.*1 = first_occurrences (step_action <$> l1)
          ∧ preconditions_path self fuel' start_state a o1 = Return sub
          ∧ ∀ y, y ∈ sub → step_action y ∈ k1.*1.
Proof.
  unfold find_plan.
  destruct (find_actions self fuel target_state start_state)
    as [path| |] eqn:Hpath; simpl; [|done|done].
  intros [= <-]. exists path. split; [done|]. split; [done|].
  pose proof (find_actions_topological _ _ _ _ _ Hpath) as Hvalid.
  split; [done|]. intros k1 a o k2 Hplan.
  pose proof (path_to_plan_keys path) as Hkeys.
  pose proof (first_occurrences_NoDup (step_action <$> path)) as Hnd.
  rewrite <- Hkeys, Hplan, fmap_app, fmap_cons in Hnd. simpl in Hnd.
  rewrite Hplan, fmap_app, fmap_cons in Hkeys. simpl in Hkeys.
  assert (a ∈ step_action <$> path) as Ha.
  { apply first_occurrences_elem. rewrite <- Hkeys.
    apply elem_of_app. right. apply list_elem_of_here. }
  apply fmap_first_split in Ha as (l1 & [[a' o1] c] & l2 & -> & Ha' & Hl1).
  change (step_action (a', o1, c)) with a' in Ha'. subst a'.
  rewrite fmap_app, fmap_cons in Hkeys.
  change (step_action (a, o1, c)) with a in Hkeys.
  destruct (first_occurrences_split (step_action <$> l1) a
              (step_action <$> l2) Hl1) as [k Hk].
  rewrite Hk in Hkeys.
  assert (k1.*1 = first_occurrences (step_action <$> l1)) as Hk1.
  { eapply NoDup_split_unique; [exact Hkeys| |].
    - apply NoDup_app in Hnd as (_ & Hnd & _). intros Hin.
      apply (Hnd a Hin), list_elem_of_here.
    - by rewrite first_occurrences_elem. }
  destruct (Hvalid l1 (a, o1, c) l2 eq_refl) as (fuel' & sub & Hsub & Hin).
  exists l1, o1, c, l2, fuel', sub. repeat split; try done.
  intros y Hy. rewrite Hk1. apply first_occurrences_elem.
  by apply list_elem_of_fmap_2, Hin.
Qed.

Lemma find_plan_topological_witness :
  ∃ path,
    find_actions (new_planner Dial.catalog) 5 Dial.goal [] = Return path
    ∧ Dial.plan = path_to_plan path
    ∧ path_topologically_valid (new_planner Dial.catalog) [] path.
Proof.
  destruct (find_plan_topological (new_planner Dial.catalog) 5 [] Dial.goal
              Dial.plan) as (path & Hpath & Hplan & Hvalid & _).
  - vm_compute. reflexivity.
  - by exists path.
Defined.

(** C7: on the dial the search needs [SetLevel] twice, for [level = 1] and
    then for [level = 2]; the plan keeps one entry for it, at the first
    place and with the outcome [level = 2], before [Arm2], which solves the
    precondition [ready = 2] of [SetLevel] for that outcome: the plan is
    not topologically valid. *)
Lemma find_plan_not_topological :
  find_plan (new_planner Dial.catalog) 5 [] Dial.goal = Return Dial.plan
  ∧ ¬ plan_topologically_valid (new_planner Dial.catalog) [] Dial.plan.
Proof.
  split; [vm_compute; reflexivity|]. intros Hvalid.
  destruct (Hvalid [(Dial.Arm1, [("ready", VInt 1)])] Dial.SetLevel
              [("level", VInt 2)] [(Dial.Arm2, [("ready", VInt 2)])] eq_refl)
    as (fuel & sub & Hsub & Hin).
  apply (preconditions_path_mono _ _ (fuel `max` 4)) in Hsub; [|lia].
  assert (preconditions_path (new_planner Dial.catalog) 4 [] Dial.SetLevel
            [("level", VInt 2)]
          = Return [(Dial.Arm1, [("ready", VInt 1)], Fin 1);
                    (Dial.SetLevel, [("level", VInt 1)], Fin 1);
                    (Dial.Arm2, [("ready", VInt 2)], Fin 1)]) as Hfour
    by (vm_compute; reflexivity).
  apply (preconditions_path_mono _ _ (fuel `max` 4)) in Hfour; [|lia].
  rewrite Hsub in Hfour. injection Hfour as ->.
  specialize (Hin (Dial.Arm2, [("ready", VInt 2)], Fin 1)).
  assert (¬ Dial.Arm2 ∈ [Dial.Arm1]) as Hnot.
  { intros [=]%list_elem_of_singleton. }
  apply Hnot, Hin. do 2 apply list_elem_of_further. apply list_elem_of_here.
Qed.

(** * Further properties of the planner *)

(** ** The action index, bucket by bucket *)

Lemma index_effects_bucket (action : Action) (effs : State)
    (m : gmap (string * value) (list Action)) (kv : string * value) :
  NoDup effs →
  foldl (λ lookup_actions kv',
           <[kv' := (lookup_actions !!! kv') ++ [action]]> lookup_actions)
        m effs !!! kv
  = (m !!! kv) ++ (if decide (kv ∈ effs) then [action] else []).
Proof.
  revert m. induction effs as [|kv' effs IH]; intros m Hnd.
  - simpl. by rewrite app_nil_r.
  - apply NoDup_cons in Hnd as [Hkv' Hnd]. cbn [foldl]. rewrite IH by done.
    destruct (decide (kv' = kv)) as [->|Hne].
    + rewrite lookup_total_insert_eq.
      rewrite (decide_False (P := kv ∈ effs)) by done.
      rewrite (decide_True (P := kv ∈ kv :: effs)) by apply list_elem_of_here.
      by rewrite app_nil_r.
    + rewrite lookup_total_insert_ne by done. f_equal.
      apply decide_ext. rewrite elem_of_cons. intuition congruence.
Qed.

(** X1: when no action lists an effect twice (the effects are a mapping),
    the bucket of a (variable, value) pair holds exactly the actions of the
    catalog with that effect, each once and in catalog order. *)
Theorem create_action_lookup_bucket (actions : list Action)
    (kv : string * value) :
  Forall (λ a, NoDup (effects a)) actions →
  create_action_lookup actions !!! kv = filter (λ a, kv ∈ effects a) actions.
Proof.
  unfold create_action_lookup. intros Hall.
  assert (∀ m : gmap (string * value) (list Action),
    foldl (λ lookup_actions action,
             foldl (λ lookup_actions kv',
                      <[kv' := (lookup_actions !!! kv') ++ [action]]>
                        lookup_actions)
                   lookup_actions (effects action)) m actions !!! kv
    = (m !!! kv) ++ filter (λ a, kv ∈ effects a) actions) as Hgen.
  { induction Hall as [|action actions Hnd _ IH]; intros m.
    - simpl. by rewrite app_nil_r.
    - cbn [foldl]. rewrite IH, index_effects_bucket by done.
      rewrite filter_cons. case_decide; [|by rewrite app_nil_r].
      by rewrite <- app_assoc. }
  by rewrite Hgen, lookup_total_empty.
Qed.

Lemma create_action_lookup_bucket_witness :
  create_action_lookup Bakery.catalog !!! ("flour", VBool true)
  = [Bakery.BuyFlour]
  ∧ create_action_lookup [Scenarios.B1; Scenarios.B2; Scenarios.B3]
      !!! ("key", VStr "open")
    = [Scenarios.B1; Scenarios.B2].
Proof.
  split.
  - rewrite (create_action_lookup_bucket Bakery.catalog).
    + vm_compute. reflexivity.
    + apply (bool_decide_unpack _). vm_compute. exact I.
  - rewrite (create_action_lookup_bucket
               [Scenarios.B1; Scenarios.B2; Scenarios.B3]).
    + vm_compute. reflexivity.
    + apply (bool_decide_unpack _). vm_compute. exact I.
Defined.

Lemma probable_actions_for_inv (actions : list Action) (gk : string)
    (gv : value) (a : Action) :
  a ∈ probable_actions_for (new_planner actions) gk gv →
  a ∈ actions ∧ ((gk, gv) ∈ effects a ∨ ((gk, VEllipsis) ∈ effects a
                                          ∧ (gk, gv) ∉ effects a)).
Proof.
  unfold probable_actions_for, new_planner. simpl.
  destruct (create_action_lookup actions !!! (gk, gv)) as [|b0 l] eqn:E.
  - intros [Ha Heff]%create_action_lookup_elem. split; [done|]. right.
    split; [done|]. intros Hgv.
    assert (a ∈ create_action_lookup actions !!! (gk, gv)) as Hin
      by by apply create_action_lookup_elem.
    rewrite E in Hin. by apply elem_of_nil in Hin.
  - rewrite <- E. intros [Ha Heff]%create_action_lookup_elem.
    split; [done|]. by left.
Qed.

(** X2: the candidates of a goal are the actions of the catalog that
    produce the goal's exact pair, and, only when no action does, the
    service actions whose effect on the goal's variable is the wildcard. *)
Theorem probable_actions_for_elem (actions : list Action) (gk : string)
    (gv : value) (a : Action) :
  a ∈ probable_actions_for (new_planner actions) gk gv
  ↔ a ∈ actions
    ∧ ((gk, gv) ∈ effects a
       ∨ ((gk, VEllipsis) ∈ effects a
          ∧ ∀ b, b ∈ actions → (gk, gv) ∉ effects b)).
Proof.
  unfold probable_actions_for, new_planner. simpl.
  destruct (create_action_lookup actions !!! (gk, gv)) as [|b0 l] eqn:E.
  - assert (∀ b, b ∈ actions → (gk, gv) ∉ effects b) as Hnone.
    { intros b Hb Heff.
      assert (b ∈ create_action_lookup actions !!! (gk, gv)) as Hin
        by by apply create_action_lookup_elem.
      rewrite E in Hin. by apply elem_of_nil in Hin. }
    rewrite create_action_lookup_elem. split.
    + intros [Ha Heff]. split; [done|]. by right.
    + intros [Ha [Heff|[Heff _]]]; [by destruct (Hnone a Ha)|done].
  - rewrite <- E, create_action_lookup_elem. split.
    + intros [Ha Heff]. split; [done|]. by left.
    + intros [Ha [Heff|[_ Hnone]]]; [done|]. exfalso.
      assert (b0 ∈ create_action_lookup actions !!! (gk, gv)) as Hb0
        by (rewrite E; apply list_elem_of_here).
      apply create_action_lookup_elem in Hb0 as [Hb0 Heff0].
      by apply (Hnone b0).
Qed.

(** ** [__unique] and [__path_to_plan] on their own *)

(** X9: [__unique] changes nothing on a path it has already cleaned, and
    the paths it leaves unchanged are exactly those without a repeated
    triple. *)
Theorem unique_fixed_points (path : Path) :
  unique (unique path) = unique path
  ∧ (unique path = path ↔ NoDup path).
Proof.
  rewrite !unique_first_occurrences. split.
  - apply first_occurrences_idemp.
  - split.
    + intros <-. apply first_occurrences_NoDup.
    + apply first_occurrences_NoDup_id.
Qed.

Lemma plan_set_elem_inv (plan : Plan) (a a' : Action) (e e' : State) :
  (a', e') ∈ plan_set plan a e → (a', e') = (a, e) ∨ (a', e') ∈ plan.
Proof.
  induction plan as [|[a0 e0] plan IH]; simpl.
  - intros ?%list_elem_of_singleton. by left.
  - case_decide as Ha; rewrite !elem_of_cons.
    + subst a0. intros [?|?]; [by left|right; by right].
    + intros [?|[?|?]%IH]; [right; by left|by left|right; by right].
Qed.

(** Every entry of the plan is a triple of the path without its cost. *)
Lemma path_to_plan_elem (path : Path) (a : Action) (e : State) :
  (a, e) ∈ path_to_plan path → ∃ c, (a, e, c) ∈ path.
Proof.
  induction path as [|[[a0 e0] c0] path IH] using rev_ind.
  - by intros ?%elem_of_nil.
  - rewrite path_to_plan_snoc.
    intros [[= -> ->]|Hin]%plan_set_elem_inv.
    + exists c0. apply elem_of_app. right. apply list_elem_of_here.
    + destruct (IH Hin) as [c Hc]. exists c. apply elem_of_app. by left.
Qed.

(** X8: on a path that names no action twice the plan is the path without
    the costs, step for step. *)
Theorem path_to_plan_distinct_actions (path : Path) :
  NoDup (step_action <$> path) →
  path_to_plan path = (λ x, (step_action x, step_outcome x)) <$> path.
Proof.
  induction path as [|x path IH] using rev_ind; intros Hnd; [done|].
  rewrite fmap_app in Hnd. apply NoDup_app in Hnd as (Hnd & Hx & _).
  rewrite path_to_plan_snoc, fmap_app, IH by done.
  apply plan_set_new. rewrite <- list_fmap_compose. simpl.
  intros Hin. apply (Hx _ Hin), list_elem_of_here.
Qed.

Lemma path_to_plan_distinct_actions_witness :
  path_to_plan Bakery.path
  = [(Bakery.BuyFlour, [("flour", VBool true)]);
     (Bakery.MakeDough, [("dough", VBool true)]);
     (Bakery.MakeRoux, [("roux", VBool true)]);
     (Bakery.BakePie, [("pie", VBool true)])].
Proof.
  rewrite (path_to_plan_distinct_actions Bakery.path).
  - reflexivity.
  - apply (bool_decide_unpack _). vm_compute. exact I.
Defined.

(** ** What a search over a goal with candidates returns *)

Lemma explore_Return_candidate (solve : State → outcome Path)
    (expected_outcome : State) (probable_actions : list Action) (r : Path) :
  probable_actions ≠ [] →
  explore solve expected_outcome probable_actions [] = Return r →
  ∃ action, action ∈ probable_actions
            ∧ candidate_path solve expected_outcome action = Return r.
Proof.
  destruct probable_actions as [|a l]; [done|]. intros _. cbn [explore].
  destruct (candidate_path solve expected_outcome a) as [p| |] eqn:E;
    [|done|done].
  cbn [bind choose]. intros [->|(b & Hb & Hr)]%explore_Return.
  - exists a. split; [apply list_elem_of_here|done].
  - exists b. split; [by apply list_elem_of_further|done].
Qed.

(** The three ways a search returns, with the goal [(gk, gv)] resolved. *)
Lemma find_actions_S_Return (self : Planner) (fuel : nat) (gk : string)
    (gv : value) (rest start_state : State) (path : Path) :
  find_actions self (S fuel) ((gk, gv) :: rest) start_state = Return path →
  ((gk, check_references gv start_state) ∈ start_state ∧ path = [])
  ∨ (((gk, check_references gv start_state) ∉ start_state)
     ∧ probable_actions_for self gk (check_references gv start_state) = []
     ∧ path = [(ActionImpossible, [], Inf)])
  ∨ (((gk, check_references gv start_state) ∉ start_state)
     ∧ ∃ action sub,
         action ∈ probable_actions_for self gk
                    (check_references gv start_state)
         ∧ preconditions_path self fuel start_state action
             [(gk, check_references gv start_state)] = Return sub
         ∧ (∃ c, path_cost (sub ++ [(action,
                                     [(gk, check_references gv start_state)],
                                     cost action)]) = Return c
                 ∧ exceeds_float_max c = false)
         ∧ path = unique (sub ++ [(action,
                                   [(gk, check_references gv start_state)],
                                   cost action)])).
Proof.
  rewrite find_actions_S. case_decide as Hstart; [intros [= <-]; by left|].
  destruct (probable_actions_for self gk (check_references gv start_state))
    as [|a l] eqn:Ep; [intros [= <-]; right; by left|].
  destruct (explore _ _ (a :: l) []) as [chosen| |] eqn:E; simpl;
    [|done|done].
  destruct (path_cost chosen) as [c| |] eqn:Esum; cbn [bind]; [|done|done].
  destruct (exceeds_float_max c) eqn:Ecost; [done|].
  intros [= <-]. right; right. split; [done|].
  apply explore_Return_candidate in E as (action & Hin & Hc); [|done].
  apply candidate_path_Return in Hc as (sub & Hsub & ->).
  exists action, sub. split; [done|]. split; [done|]. split; [by exists c|done].
Qed.

(** Every step of a returned path is the sentinel or a catalog action
    chosen for a single predicate that it produces and that the start state
    lacks. *)
Lemma find_actions_sound (actions : list Action) (start_state : State)
    (fuel : nat) (target_state : State) (path : Path) :
  find_actions (new_planner actions) fuel target_state start_state
  = Return path →
  Forall (λ x, x = (ActionImpossible, [], Inf)
               ∨ (step_action x ∈ actions
                  ∧ ∃ k v, step_outcome x = [(k, v)]
                           ∧ ((k, v) ∉ start_state)
                           ∧ ((k, v) ∈ effects (step_action x)
                              ∨ (k, VEllipsis) ∈ effects (step_action x))))
         path.
Proof.
  revert target_state path.
  induction fuel as [|fuel IH]; intros target_state path; [done|].
  destruct target_state as [|[gk gv] rest]; [done|].
  intros [[_ ->]|[(_ & _ & ->)|(Hstart & a & sub & Ha & Hsub & _ & ->)]]%find_actions_S_Return.
  - constructor.
  - constructor; [by left|constructor].
  - apply Forall_forall. intros x Hx.
    apply (proj1 (unique_elem _ _)) in Hx. revert x Hx.
    apply (proj1 (Forall_forall _ _)), Forall_app. split.
    + apply solve_preconditions_Return in Hsub as (subs & -> & Hsubs).
      simpl. apply Forall_concat. eapply Forall_impl; [exact Hsubs|].
      intros p [t Ht]. by eapply IH.
    + constructor; [|constructor]. right.
      apply probable_actions_for_inv in Ha as [Ha Heff].
      split; [done|]. eexists _, _. split; [done|]. split; [done|].
      destruct Heff as [?|[? _]]; [by left|by right].
Qed.

(** X3: every entry of a returned plan is the sentinel with the empty state,
    or an action of the catalog with a single predicate that the action
    produces (as a fixed effect or as a wildcard) and that the start state
    does not already hold. *)
Theorem find_plan_sound (actions : list Action) (fuel : nat)
    (start_state target_state : State) (plan : Plan) (a : Action) (o : State) :
  find_plan (new_planner actions) fuel start_state target_state
  = Return plan →
  (a, o) ∈ plan →
  (a = ActionImpossible ∧ o = [])
  ∨ (a ∈ actions
     ∧ ∃ k v, o = [(k, v)]
              ∧ ((k, v) ∉ start_state)
              ∧ ((k, v) ∈ effects a ∨ (k, VEllipsis) ∈ effects a)).
Proof.
  unfold find_plan.
  destruct (find_actions _ fuel target_state start_state)
    as [path| |] eqn:Hpath; simpl; [|done|done].
  intros [= <-] [c Hc]%path_to_plan_elem.
  apply find_actions_sound in Hpath. rewrite Forall_forall in Hpath.
  destruct (Hpath _ Hc) as [[= -> -> _]|Hx]; [by left|by right].
Qed.

Lemma find_plan_sound_witness :
  (Scenarios.B3 = ActionImpossible ∧ [("has_key", VBool true)] = [])
  ∨ (Scenarios.B3 ∈ [Scenarios.B1; Scenarios.B2; Scenarios.B3]
     ∧ ∃ k v, [("has_key", VBool true)] = [(k, v)]
              ∧ ((k, v) ∉ ([] : State))
              ∧ ((k, v) ∈ effects Scenarios.B3
                 ∨ (k, VEllipsis) ∈ effects Scenarios.B3)).
Proof.
  apply (find_plan_sound [Scenarios.B1; Scenarios.B2; Scenarios.B3] 5 []
           [("key", VStr "open")]
           [(Scenarios.B3, [("has_key", VBool true)]);
            (Scenarios.B2, [("key", VStr "open")])]).
  - vm_compute. reflexivity.
  - apply list_elem_of_here.
Defined.

(** ** Empty plans *)

Lemma path_to_plan_nil (path : Path) : path_to_plan path = [] → path = [].
Proof.
  destruct path as [|x path]; [done|]. intros Hplan.
  pose proof (path_to_plan_keys (x :: path)) as Hkeys.
  rewrite Hplan in Hkeys. discriminate Hkeys.
Qed.

Lemma unique_snoc_nonempty (sub : Path) (x : Step) : unique (sub ++ [x]) ≠ [].
Proof.
  intros Hnil. assert (x ∈ unique (sub ++ [x])) as Hx.
  { apply unique_elem, elem_of_app. right. apply list_elem_of_here. }
  rewrite Hnil in Hx. by apply elem_of_nil in Hx.
Qed.

(** X4: [find_plan] returns the empty plan exactly when the first goal
    predicate, resolved against the start state, is a pair of the start
    state; a goal that needs an action never yields an empty plan. *)
Theorem find_plan_empty_iff (self : Planner) (fuel : nat)
    (start_state : State) (gk : string) (gv : value) (rest : State) :
  find_plan self (S fuel) start_state ((gk, gv) :: rest) = Return []
  ↔ (gk, check_references gv start_state) ∈ start_state.
Proof.
  split.
  - unfold find_plan.
    destruct (find_actions self (S fuel) ((gk, gv) :: rest) start_state)
      as [path| |] eqn:Hpath; simpl; [|done|done].
    intros [= Hplan%path_to_plan_nil]. subst path.
    apply find_actions_S_Return in Hpath
      as [[? _]|[(_ & _ & [=])|(_ & a & sub & _ & _ & _ & Hnil)]]; [done|].
    symmetry in Hnil. by apply unique_snoc_nonempty in Hnil.
  - intros Hin. unfold find_plan. by rewrite find_actions_satisfied.
Qed.

(** ** Actions of infinite cost *)

Lemma path_cost_Fin (path : Path) (z : Z) :
  path_cost path = Return (Fin z) →
  Forall (λ x, cost (step_action x) ≠ Inf) path.
Proof.
  revert z. induction path as [|x path IH] using rev_ind; intros z;
    [constructor|].
  rewrite path_cost_snoc.
  destruct (path_cost path) as [c| |]; cbn [bind]; [|done|done].
  intros Hadd. pose proof (cost_add_Return _ _ _ Hadd) as Hsum.
  destruct c as [a|], (cost (step_action x)) as [y|] eqn:Ey; try done.
  apply Forall_app. split; [by eapply IH|].
  constructor; [by rewrite Ey|constructor].
Qed.

(** X5: an action of infinite cost, the sentinel above all, appears in a
    returned plan only as the sole entry of the plan of a goal without
    candidates; a plan of several steps never holds one. *)
Theorem find_plan_infinite_cost_alone (self : Planner) (fuel : nat)
    (start_state target_state : State) (plan : Plan) (a : Action) (o : State) :
  find_plan self fuel start_state target_state = Return plan →
  (a, o) ∈ plan →
  cost a = Inf →
  plan = [(ActionImpossible, [])].
Proof.
  unfold find_plan.
  destruct (find_actions self fuel target_state start_state)
    as [path| |] eqn:Hpath; simpl; [|done|done].
  intros [= <-] [c Hc]%path_to_plan_elem Hinf.
  apply find_actions_Return in Hpath
    as [->|[->|(fuel' & b & eo & sub & _ & _ & Hcost & ->)]].
  - by apply elem_of_nil in Hc.
  - done.
  - exfalso. apply (proj1 (unique_elem _ _)) in Hc.
    destruct Hcost as ([z|] & Hsum & Hmax); [|done].
    apply path_cost_Fin in Hsum. rewrite Forall_forall in Hsum.
    by apply (Hsum _ Hc).
Qed.

Lemma find_plan_infinite_cost_alone_witness :
  find_plan (new_planner [Scenarios.A1; Scenarios.A2]) 1 []
            [("teleported", VBool true)]
  = Return [(ActionImpossible, [])]
  ∧ [(ActionImpossible, ([] : State))] = [(ActionImpossible, [])].
Proof.
  split; [vm_compute; reflexivity|].
  apply (find_plan_infinite_cost_alone
           (new_planner [Scenarios.A1; Scenarios.A2]) 1 []
           [("teleported", VBool true)] _ ActionImpossible []).
  - vm_compute. reflexivity.
  - apply list_elem_of_here.
  - reflexivity.
Defined.

(** ** The errors of a search *)







(** ** Preconditions the start state already holds *)

(** A precondition value is resolved twice: against the expected outcome by
    the loop, then against the start state by the sub-search. *)
Lemma solve_preconditions_met (self : Planner) (fuel : nat)
    (start_state expected_outcome pre : State) (acc : Path) :
  Forall (λ kv, (kv.1, check_references
                         (check_references kv.2 expected_outcome)
                         start_state) ∈ start_state) pre →
  solve_preconditions (λ t, find_actions self (S fuel) t start_state)
    expected_outcome pre acc = Return acc.
Proof.
  revert acc. induction pre as [|[pk pv] pre IH]; intros acc Hmet; [done|].
  apply Forall_cons in Hmet as [Hpk Hmet]. cbn [solve_preconditions].
  rewrite find_actions_satisfied by exact Hpk.
  cbn [bind]. rewrite app_nil_r. by apply IH.
Qed.

(** X7: when the goal has a single candidate, of a cost no float exceeds,
    and the start state holds each of its preconditions (the value resolved
    against the goal, then against the start state), the plan is that
    action alone with the resolved goal as its state. *)
Theorem find_plan_preconditions_met (self : Planner) (fuel : nat)
    (start_state : State) (gk : string) (gv : value) (rest : State)
    (a : Action) :
  ((gk, check_references gv start_state) ∉ start_state) →
  probable_actions_for self gk (check_references gv start_state) = [a] →
  Forall (λ kv, (kv.1, check_references
                         (check_references kv.2
                            [(gk, check_references gv start_state)])
                         start_state) ∈ start_state) (preconditions a) →
  exceeds_float_max (cost a) = false →
  find_plan self (S (S fuel)) start_state ((gk, gv) :: rest)
  = Return [(a, [(gk, check_references gv start_state)])].
Proof.
  intros Hstart Hcand Hmet Hcost. unfold find_plan.
  rewrite find_actions_S, decide_False by done. rewrite Hcand.
  cbn [explore]. unfold candidate_path.
  rewrite solve_preconditions_met by done. cbn [bind app choose explore].
  unfold path_cost, step_action. cbn [foldl fst bind].
  destruct (cost a) as [z|]; [|done]. cbn [cost_add bind].
  change (0 + z) with z. rewrite Hcost.
  rewrite unique_first_occurrences. reflexivity.
Qed.

Lemma find_plan_preconditions_met_witness :
  find_plan (new_planner [Scenarios.A1; Scenarios.A2]) 2
            [("has_axe", VBool true)] [("wood_chopped", VBool true)]
  = Return [(Scenarios.A2, [("wood_chopped", VBool true)])].
Proof.
  apply (find_plan_preconditions_met
           (new_planner [Scenarios.A1; Scenarios.A2]) 0
           [("has_axe", VBool true)] "wood_chopped" (VBool true) []
           Scenarios.A2).
  - apply (bool_decide_unpack _). vm_compute. exact I.
  - vm_compute. reflexivity.
  - apply (bool_decide_unpack _). vm_compute. exact I.
  - vm_compute. reflexivity.
Defined.

(** ** The step that reaches the goal *)

(** X10: when the goal is not met by the start state and has candidates, a
    returned plan holds one of the goal's candidates, and the path behind
    it holds that candidate's triple with the resolved goal as outcome and
    the candidate's cost. *)
Theorem find_plan_reaches_goal (self : Planner) (fuel : nat)
    (start_state : State) (gk : string) (gv : value) (rest : State)
    (plan : Plan) :
  ((gk, check_references gv start_state) ∉ start_state) →
  probable_actions_for self gk (check_references gv start_state) ≠ [] →
  find_plan self (S fuel) start_state ((gk, gv) :: rest) = Return plan →
  ∃ a path,
    find_actions self (S fuel) ((gk, gv) :: rest) start_state = Return path
    ∧ a ∈ probable_actions_for self gk (check_references gv start_state)
    ∧ (a, [(gk, check_references gv start_state)], cost a) ∈ path
    ∧ a ∈ plan.*1.
Proof.
  intros Hstart Hcand. unfold find_plan.
  destruct (find_actions self (S fuel) ((gk, gv) :: rest) start_state)
    as [path| |] eqn:Hpath; simpl; [|done|done].
  intros [= <-].
  destruct (find_actions_S_Return _ _ _ _ _ _ _ Hpath)
    as [[? _]|[(_ & ? & _)|(_ & a & sub & Ha & _ & _ & ->)]]; [done|done|].
  exists a, (unique (sub ++ [(a, [(gk, check_references gv start_state)],
                              cost a)])).
  assert ((a, [(gk, check_references gv start_state)], cost a)
          ∈ unique (sub ++ [(a, [(gk, check_references gv start_state)],
                             cost a)])) as Hin.
  { apply unique_elem, elem_of_app. right. apply list_elem_of_here. }
  split; [done|]. split; [done|]. split; [done|].
  rewrite path_to_plan_keys. apply first_occurrences_elem.
  by apply (list_elem_of_fmap_2 step_action) in Hin.
Qed.

Lemma find_plan_reaches_goal_witness :
  ∃ a path,
    find_actions (new_planner [Scenarios.B1; Scenarios.B2; Scenarios.B3]) 3
                 [("key", VStr "open")] [] = Return path
    ∧ a ∈ [Scenarios.B1; Scenarios.B2]
    ∧ (a, [("key", VStr "open")], cost a) ∈ path.
Proof.
  destruct (find_plan_reaches_goal
              (new_planner [Scenarios.B1; Scenarios.B2; Scenarios.B3]) 2 []
              "key" (VStr "open") []
              [(Scenarios.B3, [("has_key", VBool true)]);
               (Scenarios.B2, [("key", VStr "open")])])
    as (a & path & Hpath & Ha & Hin & _).
  - apply not_elem_of_nil.
  - vm_compute. discriminate.
  - vm_compute. reflexivity.
  - exists a, path. split; [exact Hpath|]. split; [exact Ha|exact Hin].
Defined.
